(** * Filters and state grouping of Flax NNX

    A shallow embedding of the code of the guide "Using Filters":
    the predicate [is_param] and the grouping function [split], together
    with the filter DSL of [nnx.filterlib] that [split] calls. *)

From stdpp Require Import gmap strings list fin_maps.

(** ** Python classes

    A class is its name together with its direct bases, each of them a class
    again: the part of a Python class object that [isinstance] and
    [issubclass] look at. *)

#[local] Unset Elimination Schemes.
Inductive Class : Type :=
  | MkClass (name : string) (bases : list Class).
#[local] Set Elimination Schemes.

Definition class_bases (c : Class) : list Class :=
  match c with MkClass _ bs => bs end.

(** Identity of classes, decided structurally. *)
Fixpoint class_eqb (c k : Class) {struct c} : bool :=
  match c, k with
  | MkClass n bs, MkClass m ks =>
      String.eqb n m &&
      (fix all2 (bs ks : list Class) {struct bs} : bool :=
         match bs, ks with
         | [], [] => true
         | b :: bs', k' :: ks' => class_eqb b k' && all2 bs' ks'
         | _, _ => false
         end) bs ks
  end.

(** [issubclass(c, k)]: [k] is [c] itself or is reached through the bases. *)
Fixpoint issubclass (c k : Class) {struct c} : bool :=
  class_eqb c k ||
  match c with
  | MkClass _ bs => existsb (fun b => issubclass b k) bs
  end.

(** The classes of the guide. *)
Definition object_ : Class := MkClass "object" [].
Definition Variable_ : Class := MkClass "Variable" [object_].
Definition Param : Class := MkClass "Param" [Variable_].
Definition BatchStat : Class := MkClass "BatchStat" [Variable_].
Definition SpecialParam : Class := MkClass "SpecialParam" [Param].
Definition VariableState : Class := MkClass "VariableState" [object_].

(** ** Paths and values *)

(** [Key]: a string field name or an integer index. *)
Definition Key : Type := string + Z.

(** [KeyPath = tuple[Key, ...]] *)
Definition KeyPath : Type := list Key.

(** The value found at a path: an object of class [ob_type] that may carry a
    [type] attribute (a class, as [VariableState(type=Param, value=0)] does)
    and a string [tag] attribute; [ob_value] is its payload. *)
Record Value : Type := MkValue {
  ob_type : Class;
  attr_type : option Class;
  attr_tag : option string;
  ob_value : Z
}.

(** ** Results and exceptions

    [ValueError_no_filter_matched] is the [ValueError] that [split] raises
    for a pair no filter matched (the spec's [UnmatchedEntry]);
    [TypeError_invalid_filter] is the error of the compiler on a literal of
    no recognized form (the spec's [InvalidFilterLiteral]). *)

Inductive exn : Type :=
  | AttributeError (attr : string)
  | IndexError (i : nat)
  | ValueError_no_filter_matched (path : KeyPath) (value : Value)
  | TypeError_invalid_filter (repr : string).

Inductive result (A : Type) : Type :=
  | Ok (a : A)
  | Raise (e : exn).
Arguments Ok {A} a.
Arguments Raise {A} e.

Definition result_bind {A B} (r : result A) (f : A → result B) : result B :=
  match r with
  | Ok a => f a
  | Raise e => Raise e
  end.

#[global] Instance result_ret : MRet result := @Ok.
#[global] Instance result_mbind : MBind result := fun A B f r => result_bind r f.

(** [a or b] and [a and b]: the right operand is evaluated only when the left
    one does not decide. *)
Definition py_or (a : result bool) (b : unit → result bool) : result bool :=
  result_bind a (fun x => if x then Ok true else b tt).

Definition py_and (a : result bool) (b : unit → result bool) : result bool :=
  result_bind a (fun x => if x then b tt else Ok false).

(** ** Object primitives *)

Definition isinstance (value : Value) (k : Class) : bool :=
  issubclass (ob_type value) k.

Definition hasattr_type (value : Value) : bool :=
  bool_decide (is_Some (attr_type value)).

(** [value.type]: raises [AttributeError] when the attribute is missing. *)
Definition getattr_type (value : Value) : result Class :=
  match attr_type value with
  | Some t => Ok t
  | None => Raise (AttributeError "type")
  end.

(** ** The predicate of the guide *)

Definition is_param (path : KeyPath) (value : Value) : result bool :=
  py_or (Ok (isinstance value Param))
        (fun _ => py_and (Ok (hasattr_type value))
                         (fun _ => t ← getattr_type value;
                                   Ok (issubclass t Param))).

(** [is_param] with the class as a parameter: [nnx.OfType] "defines a callable
    of this form for a given type". *)
Definition OfType_call (K : Class) (path : KeyPath) (value : Value) : result bool :=
  py_or (Ok (isinstance value K))
        (fun _ => py_and (Ok (hasattr_type value))
                         (fun _ => t ← getattr_type value;
                                   Ok (issubclass t K))).

(** The filter protocol: [(path: tuple[Key, ...], value: Any) -> bool]. *)
Definition Predicate : Type := KeyPath → Value → bool.

(** ** The filter DSL

    The literals a caller may pass where a filter is expected (the table of
    the guide): [...], [True]/[False], [None], a type, a string, a tuple or
    list of filters, a callable of the filter protocol; [LOther] stands for
    any other Python value (a number, a dict), given by its [repr]. *)

#[local] Unset Elimination Schemes.
Inductive Literal : Type :=
  | LEllipsis
  | LBool (b : bool)
  | LNone
  | LType (K : Class)
  | LStr (s : string)
  | LTuple (filters : list Literal)
  | LList (filters : list Literal)
  | LCallable (p : Predicate)
  | LOther (repr : string).
#[local] Set Elimination Schemes.

(** ** Runs: what a call did and how it ended

    [split] is followed through the calls it makes: compiling a filter,
    calling a predicate on a pair, storing a pair in a group. *)

Inductive event : Type :=
  | EvCompile (filter : Literal)
  | EvCall (i : nat) (path : KeyPath) (value : Value)
  | EvStore (i : nat) (path : KeyPath) (value : Value).

Record M (A : Type) : Type := Run {
  trace : list event;
  outcome : result A
}.
Arguments Run {A} trace outcome.
Arguments trace {A} _.
Arguments outcome {A} _.

#[global] Instance M_ret : MRet M := fun A a => Run [] (Ok a).
#[global] Instance M_bind : MBind M := fun A B f m =>
  match outcome m with
  | Ok a => Run (trace m ++ trace (f a)) (outcome (f a))
  | Raise e => Run (trace m) (Raise e)
  end.

Definition tell (ev : event) : M unit := Run [ev] (Ok tt).
Definition lift {A} (r : result A) : M A := Run [] r.
Definition raise {A} (e : exn) : M A := Run [] (Raise e).

(** A flat state: the dict [dict[KeyPath, Any]] of one group. *)
Abbreviation FlatState := (gmap KeyPath Value).

Section split.
Context {Node GraphDef : Type}.

(** [nnx.graph.flatten(node)] followed by [state.flat_state()]: the graph
    definition and the [(path, value)] pairs in the order they are
    traversed. *)
Variable flatten : Node → GraphDef * list (KeyPath * Value).

(** [nnx.filterlib.to_predicate] *)
Variable to_predicate : Literal → result Predicate.

(** [predicates = [nnx.filterlib.to_predicate(f) for f in filters]] *)
Fixpoint compile_filters (filters : list Literal) : M (list Predicate) :=
  match filters with
  | [] => mret []
  | f :: filters' =>
      _ ← tell (EvCompile f);
      p ← lift (to_predicate f);
      ps ← compile_filters filters';
      mret (p :: ps)
  end.

(** [flat_states[i][path] = value] *)
Definition store (i : nat) (path : KeyPath) (value : Value)
    (flat_states : list FlatState) : M (list FlatState) :=
  match flat_states !! i with
  | Some d =>
      _ ← tell (EvStore i path value);
      mret (<[i := <[path := value]> d]> flat_states)
  | None => raise (IndexError i)
  end.

(** The inner loop, entered at index [i] with the predicates still to try:
    [for i, predicate in enumerate(predicates): ... break] and its [else]
    branch. *)
Fixpoint first_match_loop (i : nat) (predicates : list Predicate)
    (path : KeyPath) (value : Value) (flat_states : list FlatState)
    : M (list FlatState) :=
  match predicates with
  | [] => raise (ValueError_no_filter_matched path value)
  | predicate :: predicates' =>
      _ ← tell (EvCall i path value);
      if predicate path value
      then store i path value flat_states
      else first_match_loop (S i) predicates' path value flat_states
  end.

(** The outer loop: [for path, value in state.flat_state(): ...] *)
Fixpoint group_loop (predicates : list Predicate)
    (pairs : list (KeyPath * Value)) (flat_states : list FlatState)
    : M (list FlatState) :=
  match pairs with
  | [] => mret flat_states
  | (path, value) :: pairs' =>
      flat_states' ← first_match_loop 0 predicates path value flat_states;
      group_loop predicates pairs' flat_states'
  end.

(** [split(node, *filters)]. The groups are returned as the flat states
    that [nnx.State.from_flat_path] is given. *)
Definition split (node : Node) (filters : list Literal)
    : M (GraphDef * list FlatState) :=
  let '(graphdef, state) := flatten node in
  predicates ← compile_filters filters;
  let flat_states := (fun _ => (∅ : FlatState)) <$> predicates in
  flat_states ← group_loop predicates state flat_states;
  mret (graphdef, flat_states).
End split.

(** ** [nnx.filterlib] *)

Module filterlib.

(** Modelled from the spec: [Everything] of [nnx.filterlib], which the guide
    calls and does not contain; "returns true unconditionally". *)
Definition Everything : Predicate := fun _ _ => true.

(** Modelled from the spec: [Nothing] of [nnx.filterlib], which the guide
    calls and does not contain; "returns false unconditionally". *)
Definition Nothing : Predicate := fun _ _ => false.

(** Modelled from the spec: [OfType] of [nnx.filterlib], which the guide
    calls and does not contain; "true iff Entry's own kind equals or is a
    sub-kind of K, OR Entry exposes a kind attribute that is equal to or a
    sub-kind of K". *)
Definition OfType (K : Class) : Predicate := fun _ value =>
  issubclass (ob_type value) K ||
  match attr_type value with
  | Some t => issubclass t K
  | None => false
  end.

(** Modelled from the spec: [WithTag] of [nnx.filterlib], which the guide
    names and does not contain; "true iff Entry exposes a tag attribute whose
    value equals S exactly". *)
Definition WithTag (tag : string) : Predicate := fun _ value =>
  match attr_tag value with
  | Some t => String.eqb t tag
  | None => false
  end.

(** Modelled from the spec: [PathContains] of [nnx.filterlib], which the
    guide names and does not contain; "true iff key appears anywhere in the
    Entry's Location sequence". *)
Definition PathContains (key : Key) : Predicate := fun path _ =>
  bool_decide (key ∈ path).

(** Modelled from the spec: [Any] of [nnx.filterlib], which the guide names
    and does not contain; "true iff ANY Pi returns true". *)
Fixpoint Any (predicates : list Predicate) : Predicate := fun path value =>
  match predicates with
  | [] => false
  | p :: predicates' => if p path value then true else Any predicates' path value
  end.

(** Modelled from the spec: [All] of [nnx.filterlib], which the guide names
    and does not contain; "true iff ALL inner predicates return true". *)
Fixpoint All (predicates : list Predicate) : Predicate := fun path value =>
  match predicates with
  | [] => true
  | p :: predicates' => if p path value then All predicates' path value else false
  end.

(** Modelled from the spec: [Not] of [nnx.filterlib], which the guide names
    and does not contain; "true iff inner predicate returns false". *)
Definition Not (p : Predicate) : Predicate := fun path value =>
  negb (p path value).

(** Modelled from the spec: [to_predicate] of [nnx.filterlib], which the
    guide calls and does not contain; [compile(literal) -> Predicate] by the
    table of literal forms, recursive over lists and tuples with the inner
    literals compiled in order, a compiled predicate passed through
    unchanged, and "an unrecognized literal form fails with an
    InvalidFilterLiteral error at compile time". *)
Fixpoint to_predicate (filter : Literal) : result Predicate :=
  match filter with
  | LEllipsis => Ok Everything
  | LBool b => Ok (if b then Everything else Nothing)
  | LNone => Ok Nothing
  | LType K => Ok (OfType K)
  | LStr s => Ok (WithTag s)
  | LTuple filters | LList filters =>
      ps ← mapM to_predicate filters;
      Ok (Any ps)
  | LCallable p => Ok p
  | LOther repr => Raise (TypeError_invalid_filter repr)
  end.

End filterlib.

(** [nnx.split] on nodes that are given by their flattened form. *)
Definition nnx_split {GraphDef : Type}
    (node : GraphDef * list (KeyPath * Value)) (filters : list Literal)
    : M (GraphDef * list FlatState) :=
  split id filterlib.to_predicate node filters.

(** The objects of the guide, in their flattened form: [Foo] with
    [a = nnx.Param(0)] and [b = nnx.BatchStat(True)], [Bar] with
    [a = nnx.Param(0)] and [b = SpecialParam(0)]. *)
Definition variable_state (type : Class) (value : Z) : Value :=
  MkValue VariableState (Some type) None value.

Definition foo : unit * list (KeyPath * Value) :=
  (tt, [ ([inl "a"], variable_state Param 0);
         ([inl "b"], variable_state BatchStat 1) ]).

Definition bar : unit * list (KeyPath * Value) :=
  (tt, [ ([inl "a"], variable_state Param 0);
         ([inl "b"], variable_state SpecialParam 0) ]).

(** ** Notions the properties are stated with *)

(** The kind hierarchy: [SubKind C K] when [C] is [K] or derives from it,
    directly or through a chain of bases. *)
Inductive SubKind : Class → Class → Prop :=
  | SubKind_refl K : SubKind K K
  | SubKind_base C B K : B ∈ class_bases C → SubKind B K → SubKind C K.

(** An entry is of kind [K] when [K] is its class or its [type] attribute. *)
Definition of_kind (value : Value) (K : Class) : Prop :=
  ob_type value = K ∨ attr_type value = Some K.

(** The index of the first predicate that returns true on a pair. *)
Definition first_match (predicates : list Predicate)
    (path : KeyPath) (value : Value) : option nat :=
  fst <$> list_find (fun p : Predicate => p path value = true) predicates.

(** The calls [predicates[i](path, value)] for [n] indices from [i] on. *)
Definition calls (i n : nat) (path : KeyPath) (value : Value) : list event :=
  (fun j => EvCall j path value) <$> seq i n.

(** What is done for one pair: the predicates are called in order up to the
    first one that returns true and the pair is stored in its group; when
    none returns true, all of them have been called. *)
Definition pair_events (predicates : list Predicate)
    (pv : KeyPath * Value) : list event :=
  match first_match predicates pv.1 pv.2 with
  | Some k => calls 0 (S k) pv.1 pv.2 ++ [EvStore k pv.1 pv.2]
  | None => calls 0 (length predicates) pv.1 pv.2
  end.

(** The pairs the traversal reaches: all of them up to and including the
    first one that no predicate matches. *)
Fixpoint reached (predicates : list Predicate)
    (pairs : list (KeyPath * Value)) : list (KeyPath * Value) :=
  match pairs with
  | [] => []
  | pv :: pairs' =>
      pv :: match first_match predicates pv.1 pv.2 with
            | Some _ => reached predicates pairs'
            | None => []
            end
  end.

(** The first pair that no predicate matches. *)
Definition first_unmatched (predicates : list Predicate)
    (pairs : list (KeyPath * Value)) : option (KeyPath * Value) :=
  snd <$> list_find (fun pv : KeyPath * Value =>
                       first_match predicates pv.1 pv.2 = None) pairs.

(** A pair put in the group of its first match. *)
Definition assign (predicates : list Predicate) (flat_states : list FlatState)
    (pv : KeyPath * Value) : list FlatState :=
  match first_match predicates pv.1 pv.2 with
  | Some k => alter (insert pv.1 pv.2) k flat_states
  | None => flat_states
  end.

(** The groups of a collection under first-match-wins. *)
Definition groups_of (predicates : list Predicate)
    (pairs : list (KeyPath * Value)) : list FlatState :=
  foldl (assign predicates) (replicate (length predicates) ∅) pairs.

(** A literal of no recognized form, at the top or inside a list or tuple. *)
Fixpoint unrecognized (filter : Literal) : bool :=
  match filter with
  | LOther _ => true
  | LTuple filters | LList filters => existsb unrecognized filters
  | _ => false
  end.

Definition is_compile (ev : event) : Prop :=
  match ev with EvCompile _ => True | _ => False end.

(** What the compiler does with a literal, by its form. *)
Definition compiles_by_form (filter : Literal) : Prop :=
  if unrecognized filter
  then ∃ repr, filterlib.to_predicate filter = Raise (TypeError_invalid_filter repr)
  else ∃ p, filterlib.to_predicate filter = Ok p.



(** ** The class hierarchy *)

Lemma Class_ind (P : Class → Prop) :
  (∀ n bs, Forall P bs → P (MkClass n bs)) → ∀ c, P c.
Proof.
  intros step. fix IH 1. intros [n bs]. apply step.
  induction bs as [|b bs IHbs]; constructor; [apply IH | apply IHbs].
Qed.

Lemma class_eqb_eq c k : class_eqb c k = true ↔ c = k.
Proof.
  revert k. induction c as [n bs IH] using Class_ind. intros [m ks]. simpl.
  rewrite andb_true_iff, String.eqb_eq.
  assert (Hall : ∀ ks,
    (fix all2 (bs ks : list Class) {struct bs} : bool :=
       match bs, ks with
       | [], [] => true
       | b :: bs', k' :: ks' => class_eqb b k' && all2 bs' ks'
       | _, _ => false
       end) bs ks = true ↔ bs = ks).
  { clear m ks. induction IH as [|b bs Hb _ IHbs]; intros [|k ks]; try (split; [done | done]).
    rewrite andb_true_iff, Hb, IHbs. split; [intros [-> ->]; done | intros [= -> ->]; done]. }
  rewrite Hall. split; [intros [-> ->]; done | intros [= -> ->]; done].
Qed.

Lemma class_eqb_refl c : class_eqb c c = true.
Proof. by apply class_eqb_eq. Qed.

Lemma issubclass_unfold c k :
  issubclass c k = class_eqb c k || existsb (fun b => issubclass b k) (class_bases c).
Proof. by destruct c. Qed.

Lemma issubclass_refl k : issubclass k k = true.
Proof. rewrite issubclass_unfold, class_eqb_refl. done. Qed.

Lemma issubclass_SubKind c k : issubclass c k = true ↔ SubKind c k.
Proof.
  split.
  - induction c as [n bs IH] using Class_ind. rewrite issubclass_unfold.
    cbn [class_bases]. rewrite orb_true_iff, class_eqb_eq, existsb_exists.
    intros [<- | (b & Hin & Hb)]; [constructor |].
    apply list_elem_of_In in Hin.
    apply SubKind_base with b; [done |].
    rewrite Forall_forall in IH. by apply IH.
  - induction 1 as [K | C B K Hin _ IH]; [apply issubclass_refl |].
    rewrite issubclass_unfold, orb_true_iff, existsb_exists.
    right. exists B. by rewrite <- list_elem_of_In.
Qed.

Lemma SubKind_trans A B C : SubKind A B → SubKind B C → SubKind A C.
Proof.
  induction 1 as [|A' B' K Hin _ IH]; [done |].
  intros HC. eapply SubKind_base; [done | by apply IH].
Qed.

Example SpecialParam_sub : SubKind SpecialParam Param.
Proof. apply issubclass_SubKind. reflexivity. Qed.

(** ** Runs *)

Lemma trace_bind {A B} (m : M A) (f : A → M B) :
  trace (m ≫= f) =
  trace m ++ match outcome m with Ok a => trace (f a) | Raise _ => [] end.
Proof.
  unfold mbind, M_bind. destruct (outcome m); simpl; [done |].
  by rewrite app_nil_r.
Qed.

Lemma outcome_bind {A B} (m : M A) (f : A → M B) :
  outcome (m ≫= f) =
  match outcome m with Ok a => outcome (f a) | Raise e => Raise e end.
Proof. unfold mbind, M_bind. by destruct (outcome m). Qed.

Lemma M_eq {A} (m : M A) t r : trace m = t → outcome m = r → m = Run t r.
Proof. destruct m. simpl. by intros -> ->. Qed.

(** ** First match *)

Lemma first_match_nil path value : first_match [] path value = None.
Proof. done. Qed.

Lemma first_match_cons p predicates path value :
  first_match (p :: predicates) path value =
  if p path value then Some 0 else S <$> first_match predicates path value.
Proof.
  unfold first_match. cbn [list_find]. destruct (p path value) eqn:E.
  - rewrite decide_True by done. done.
  - rewrite decide_False by congruence.
    by destruct (list_find _ predicates) as [[??]|].
Qed.

Lemma first_match_Some predicates path value i :
  first_match predicates path value = Some i ↔
  ∃ p, predicates !! i = Some p ∧ p path value = true ∧
       ∀ j q, predicates !! j = Some q → j < i → q path value = false.
Proof.
  unfold first_match. split.
  - destruct (list_find _ predicates) as [[k p]|] eqn:E; [|done].
    intros [= <-]. apply list_find_Some in E as (Hp & Ht & Hlt).
    exists p. split_and!; [done..|]. intros j q Hq Hj.
    specialize (Hlt j q Hq Hj). by destruct (q path value).
  - intros (p & Hp & Ht & Hlt).
    assert (list_find (fun p : Predicate => p path value = true) predicates
            = Some (i, p)) as ->; [|done].
    apply list_find_Some. split_and!; [done..|].
    intros j q Hq Hj. rewrite (Hlt j q Hq Hj). done.
Qed.

Lemma first_match_None predicates path value :
  first_match predicates path value = None ↔
  ∀ p, p ∈ predicates → p path value = false.
Proof.
  unfold first_match. rewrite fmap_None, list_find_None, Forall_forall.
  split; intros H p Hp; specialize (H p Hp); by destruct (p path value).
Qed.

Lemma first_match_lt predicates path value i :
  first_match predicates path value = Some i → i < length predicates.
Proof.
  intros (p & Hp & _)%first_match_Some. by eapply lookup_lt_Some.
Qed.

Lemma first_match_is_Some predicates path value :
  is_Some (first_match predicates path value) ↔
  ∃ p, p ∈ predicates ∧ p path value = true.
Proof.
  split.
  - intros [i (p & Hp & Ht & _)%first_match_Some].
    exists p. split; [by eapply list_elem_of_lookup_2 | done].
  - intros (p & Hp & Ht).
    destruct (first_match predicates path value) eqn:E; [by eexists |].
    rewrite first_match_None in E. rewrite (E p Hp) in Ht. done.
Qed.

(** ** The loops of [split] *)

Lemma calls_cons (i n : nat) (path : KeyPath) (value : Value) :
  calls i (S n) path value = EvCall i path value :: calls (S i) n path value.
Proof. done. Qed.

Lemma insert_alter_lookup {A} (f : A → A) (l : list A) i x :
  l !! i = Some x → <[i := f x]> l = alter f i l.
Proof.
  revert i. induction l as [|y l IH]; intros [|i] H; simplify_eq/=; [done |].
  f_equal. by apply IH.
Qed.

Lemma store_run (i : nat) (path : KeyPath) (value : Value)
    (flat_states : list FlatState) :
  i < length flat_states →
  store i path value flat_states =
  Run [EvStore i path value] (Ok (alter (insert path value) i flat_states)).
Proof.
  intros [d Hd]%lookup_lt_is_Some_2. unfold store. rewrite Hd.
  rewrite (insert_alter_lookup (insert path value) _ _ _ Hd). done.
Qed.

Lemma first_match_loop_run (predicates : list Predicate) (i : nat)
    (path : KeyPath) (value : Value) (flat_states : list FlatState) :
  i + length predicates ≤ length flat_states →
  first_match_loop i predicates path value flat_states =
  match first_match predicates path value with
  | Some k =>
      Run (calls i (S k) path value ++ [EvStore (i + k) path value])
          (Ok (alter (insert path value) (i + k) flat_states))
  | None =>
      Run (calls i (length predicates) path value)
          (Raise (ValueError_no_filter_matched path value))
  end.
Proof.
  revert i. induction predicates as [|p predicates IH]; intros i Hlen; [done |].
  cbn [first_match_loop length]. rewrite first_match_cons.
  cbn [length] in Hlen. destruct (p path value).
  - rewrite store_run by lia. rewrite Nat.add_0_r. done.
  - rewrite IH by (cbn; lia). destruct (first_match predicates path value) as [k|].
    + cbn [fmap option_fmap option_map]. rewrite Nat.add_succ_comm. done.
    + done.
Qed.

Lemma group_loop_run (predicates : list Predicate)
    (pairs : list (KeyPath * Value)) (flat_states : list FlatState) :
  length flat_states = length predicates →
  group_loop predicates pairs flat_states =
  Run (reached predicates pairs ≫= pair_events predicates)
      (match first_unmatched predicates pairs with
       | Some (path, value) => Raise (ValueError_no_filter_matched path value)
       | None => Ok (foldl (assign predicates) flat_states pairs)
       end).
Proof.
  revert flat_states.
  induction pairs as [|[path value] pairs IH]; intros flat_states Hlen; [done |].
  cbn [group_loop reached foldl fst snd].
  rewrite first_match_loop_run by (cbn; lia).
  unfold first_unmatched. cbn [list_find fst snd]. rewrite bind_cons.
  unfold pair_events at 1, assign at 2. cbn [fst snd].
  destruct (first_match predicates path value) as [k|] eqn:E.
  - rewrite decide_False by done. apply M_eq.
    + rewrite trace_bind. cbn [outcome trace].
      rewrite IH by (by rewrite length_alter). done.
    + rewrite outcome_bind. cbn [outcome].
      rewrite IH by (by rewrite length_alter).
      cbn [outcome]. unfold first_unmatched.
      by destruct (list_find _ pairs) as [[? [??]]|].
  - rewrite decide_True by done. apply M_eq.
    + rewrite trace_bind. cbn [outcome trace]. by rewrite !app_nil_r.
    + by rewrite outcome_bind.
Qed.

Lemma length_foldl_assign (predicates : list Predicate)
    (pairs : list (KeyPath * Value)) (flat_states : list FlatState) :
  length (foldl (assign predicates) flat_states pairs) = length flat_states.
Proof.
  revert flat_states. induction pairs as [|pv pairs IH]; intros fs; [done |].
  cbn [foldl]. rewrite IH. unfold assign.
  destruct (first_match _ _ _); [by rewrite length_alter | done].
Qed.

Lemma length_groups_of (predicates : list Predicate)
    (pairs : list (KeyPath * Value)) :
  length (groups_of predicates pairs) = length predicates.
Proof. unfold groups_of. by rewrite length_foldl_assign, length_replicate. Qed.

(** ** The groups under first-match-wins *)

Lemma groups_of_snoc (predicates : list Predicate)
    (pairs : list (KeyPath * Value)) (pv : KeyPath * Value) :
  groups_of predicates (pairs ++ [pv]) =
  assign predicates (groups_of predicates pairs) pv.
Proof. unfold groups_of. by rewrite foldl_app. Qed.

Lemma NoDup_fst_elem_of (pairs : list (KeyPath * Value)) p v v' :
  NoDup pairs.*1 → (p, v) ∈ pairs → (p, v') ∈ pairs → v = v'.
Proof.
  induction pairs as [|[q w] pairs IH]; [by intros _ ?%elem_of_nil |].
  rewrite fmap_cons, NoDup_cons, !elem_of_cons. cbn [fst].
  intros [Hq Hnd] [H1 | H1] [H2 | H2]; simplify_eq; [done | | | by apply IH].
  - destruct Hq. apply list_elem_of_fmap. by exists (q, v').
  - destruct Hq. apply list_elem_of_fmap. by exists (q, v).
Qed.

Lemma groups_of_lookup (predicates : list Predicate)
    (pairs : list (KeyPath * Value)) (i : nat) (m : FlatState) :
  NoDup pairs.*1 →
  groups_of predicates pairs !! i = Some m →
  ∀ p v, m !! p = Some v ↔ (p, v) ∈ pairs ∧ first_match predicates p v = Some i.
Proof.
  revert m. induction pairs as [|[p0 v0] pairs IH] using rev_ind; intros m Hnd Hm p v.
  - unfold groups_of in Hm. cbn [foldl] in Hm.
    apply lookup_replicate in Hm as [-> _]. rewrite lookup_empty.
    split; [done | by intros [?%elem_of_nil _]].
  - rewrite fmap_app, NoDup_app in Hnd. destruct Hnd as (Hnd & Hfresh & _).
    assert (Hp0 : ∀ w, (p0, w) ∉ pairs).
    { intros w Hw. apply (Hfresh p0); [|cbn; left].
      apply list_elem_of_fmap. by exists (p0, w). }
    rewrite groups_of_snoc in Hm. unfold assign in Hm. cbn [fst snd] in Hm.
    rewrite elem_of_app, list_elem_of_singleton.
    destruct (first_match predicates p0 v0) as [k|] eqn:E.
    + rewrite list_lookup_alter in Hm. destruct (decide (k = i)) as [-> | Hki].
      * destruct (groups_of predicates pairs !! i) as [m0|] eqn:Hm0; [|done].
        cbn in Hm. injection Hm as <-. specialize (IH m0 Hnd eq_refl).
        destruct (decide (p = p0)) as [-> | Hne].
        -- rewrite lookup_insert_eq. split.
           ++ intros [= <-]. split; [by right | done].
           ++ intros [[Hin | [= <-]] _]; [by destruct (Hp0 v) | done].
        -- rewrite lookup_insert_ne by done. rewrite IH. split.
           ++ intros [Hin Hf]. split; [by left | done].
           ++ intros [[Hin | [= ? ?]] Hf]; [done | done].
      * rewrite (IH m Hnd Hm). split.
        -- intros [Hin Hf]. split; [by left | done].
        -- intros [[Hin | [= -> ->]] Hf]; [done | congruence].
    + rewrite (IH m Hnd Hm). split.
      * intros [Hin Hf]. split; [by left | done].
      * intros [[Hin | [= -> ->]] Hf]; [done | congruence].
Qed.

Lemma groups_of_disjoint (predicates : list Predicate)
    (pairs : list (KeyPath * Value)) (i j : nat) (mi mj : FlatState) (p : KeyPath) :
  NoDup pairs.*1 →
  groups_of predicates pairs !! i = Some mi →
  groups_of predicates pairs !! j = Some mj →
  is_Some (mi !! p) → is_Some (mj !! p) → i = j.
Proof.
  intros Hnd Hi Hj [v Hv] [w Hw].
  apply (groups_of_lookup _ _ _ _ Hnd Hi) in Hv as [Hv Hfi].
  apply (groups_of_lookup _ _ _ _ Hnd Hj) in Hw as [Hw Hfj].
  rewrite (NoDup_fst_elem_of _ _ _ _ Hnd Hv Hw) in Hfi. congruence.
Qed.

Lemma groups_of_assigned (predicates : list Predicate)
    (pairs : list (KeyPath * Value)) (p : KeyPath) (v : Value) (i : nat) :
  NoDup pairs.*1 → (p, v) ∈ pairs → first_match predicates p v = Some i →
  ∃ m, groups_of predicates pairs !! i = Some m ∧ m !! p = Some v.
Proof.
  intros Hnd Hin Hf.
  destruct (lookup_lt_is_Some_2 (groups_of predicates pairs) i) as [m Hm].
  { rewrite length_groups_of. by eapply first_match_lt. }
  exists m. split; [done |]. by apply (groups_of_lookup _ _ _ _ Hnd Hm).
Qed.

Lemma union_list_lookup_Some (ms : list FlatState) (p : KeyPath) (v : Value) :
  (⋃ ms) !! p = Some v → ∃ m, m ∈ ms ∧ m !! p = Some v.
Proof.
  induction ms as [|m ms IH]; cbn [union_list foldr]; [by rewrite lookup_empty |].
  rewrite lookup_union_Some_raw. intros [H | [_ H]].
  - exists m. split; [left | done].
  - destruct (IH H) as (m' & Hin & Hm'). exists m'. split; [by right | done].
Qed.

Lemma union_list_lookup_is_Some (ms : list FlatState) (m : FlatState) (p : KeyPath) :
  m ∈ ms → is_Some (m !! p) → is_Some ((⋃ ms) !! p).
Proof.
  induction ms as [|m' ms IH]; [by intros ?%elem_of_nil |].
  cbn [union_list foldr]. rewrite elem_of_cons, lookup_union_is_Some.
  intros [-> | Hin] Hp; [by left | right; by apply IH].
Qed.

Lemma groups_of_union (predicates : list Predicate)
    (pairs : list (KeyPath * Value)) :
  NoDup pairs.*1 →
  (∀ p v, (p, v) ∈ pairs → is_Some (first_match predicates p v)) →
  ⋃ groups_of predicates pairs = list_to_map pairs.
Proof.
  intros Hnd Hex. apply map_eq. intros p. apply option_eq. intros v.
  assert (Hto : ∀ w, (⋃ groups_of predicates pairs) !! p = Some w → (p, w) ∈ pairs).
  { intros w (m & [i Hi]%list_elem_of_lookup & Hm)%union_list_lookup_Some.
    by apply (groups_of_lookup _ _ _ _ Hnd Hi) in Hm as [? _]. }
  rewrite <- (elem_of_list_to_map _ _ _ Hnd). split; [apply Hto |].
  intros Hin. destruct (Hex p v Hin) as [i Hf].
  destruct (groups_of_assigned _ _ _ _ _ Hnd Hin Hf) as (m & Hm & Hpv).
  destruct (union_list_lookup_is_Some (groups_of predicates pairs) m p) as [w Hw].
  { by eapply list_elem_of_lookup_2. }
  { by eexists. }
  rewrite Hw. f_equal. symmetry. by eapply NoDup_fst_elem_of; [| | apply Hto].
Qed.

(** ** Properties of [split] *)

Lemma first_unmatched_None (predicates : list Predicate)
    (pairs : list (KeyPath * Value)) :
  first_unmatched predicates pairs = None ↔
  ∀ path value, (path, value) ∈ pairs →
    ∃ p, p ∈ predicates ∧ p path value = true.
Proof.
  unfold first_unmatched. rewrite fmap_None, list_find_None, Forall_forall.
  split.
  - intros H path value Hin. apply first_match_is_Some.
    specialize (H _ Hin). cbn [fst snd] in H.
    by destruct (first_match predicates path value).
  - intros H [path value] Hin. cbn [fst snd].
    destruct (proj2 (first_match_is_Some predicates path value) (H _ _ Hin))
      as [i ->]. done.
Qed.

Lemma first_unmatched_app (predicates : list Predicate)
    (pairs1 pairs2 : list (KeyPath * Value)) (path : KeyPath) (value : Value) :
  (∀ p v, (p, v) ∈ pairs1 → ∃ q, q ∈ predicates ∧ q p v = true) →
  (∀ q, q ∈ predicates → q path value = false) →
  first_unmatched predicates (pairs1 ++ (path, value) :: pairs2)
  = Some (path, value).
Proof.
  intros H1 Hnone. apply first_unmatched_None in H1. apply first_match_None in Hnone.
  unfold first_unmatched in *. apply fmap_None in H1.
  rewrite list_find_app_r by done. cbn [list_find fst snd].
  by rewrite decide_True.
Qed.

Section split_properties.
Context {Node GraphDef : Type}.
Variable flatten : Node → GraphDef * list (KeyPath * Value).
Variable to_predicate : Literal → result Predicate.

Lemma mapM_cons (f : Literal) (filters : list Literal) :
  mapM to_predicate (f :: filters) =
  to_predicate f ≫= fun p => mapM to_predicate filters ≫= fun ps => Ok (p :: ps).
Proof. done. Qed.

Lemma length_mapM (filters : list Literal) (predicates : list Predicate) :
  mapM to_predicate filters = Ok predicates →
  length predicates = length filters.
Proof.
  revert predicates. induction filters as [|f filters IH]; intros ps.
  - by intros [= <-].
  - rewrite mapM_cons. destruct (to_predicate f) as [p|]; [|done].
    cbn. destruct (mapM to_predicate filters) as [ps'|]; [|done].
    cbn. intros [= <-]. cbn. f_equal. by apply IH.
Qed.

Lemma outcome_compile_filters (filters : list Literal) :
  outcome (compile_filters to_predicate filters) = mapM to_predicate filters.
Proof.
  induction filters as [|f filters IH]; [done |].
  rewrite mapM_cons. cbn [compile_filters].
  rewrite !outcome_bind. cbn [tell lift outcome].
  destruct (to_predicate f) as [p|]; [|done]. cbn.
  rewrite outcome_bind, IH. by destruct (mapM to_predicate filters).
Qed.

Lemma trace_compile_filters (filters : list Literal) (predicates : list Predicate) :
  mapM to_predicate filters = Ok predicates →
  trace (compile_filters to_predicate filters) = EvCompile <$> filters.
Proof.
  revert predicates. induction filters as [|f filters IH]; intros ps; [done |].
  rewrite mapM_cons. cbn [compile_filters].
  rewrite !trace_bind. cbn [tell lift outcome trace].
  destruct (to_predicate f) as [p|]; [|done]. cbn.
  destruct (mapM to_predicate filters) as [ps'|] eqn:E; [|done].
  intros _. rewrite trace_bind, (IH ps') by done.
  rewrite outcome_compile_filters, E. cbn. by rewrite app_nil_r.
Qed.

Lemma trace_compile_filters_is_compile (filters : list Literal) :
  Forall is_compile (trace (compile_filters to_predicate filters)).
Proof.
  induction filters as [|f filters IH]; [constructor |].
  cbn [compile_filters]. rewrite !trace_bind. cbn [tell lift outcome trace].
  constructor; [done |]. destruct (to_predicate f) as [p|]; [|constructor].
  cbn. rewrite trace_bind. apply Forall_app. split; [done |].
  destruct (outcome _); cbn; constructor.
Qed.

Lemma split_run (node : Node) (filters : list Literal) (predicates : list Predicate) :
  mapM to_predicate filters = Ok predicates →
  split flatten to_predicate node filters =
  Run ((EvCompile <$> filters) ++
       (reached predicates (flatten node).2 ≫= pair_events predicates))
      (match first_unmatched predicates (flatten node).2 with
       | Some (path, value) => Raise (ValueError_no_filter_matched path value)
       | None => Ok ((flatten node).1, groups_of predicates (flatten node).2)
       end).
Proof.
  intros Hc. unfold split. destruct (flatten node) as [graphdef state]. cbn [fst snd].
  apply M_eq.
  - rewrite trace_bind, outcome_compile_filters, Hc, (trace_compile_filters _ _ Hc).
    f_equal. rewrite trace_bind, group_loop_run by (by rewrite length_fmap).
    cbn [trace outcome]. destruct (first_unmatched predicates state) as [[??]|];
      cbn; by rewrite app_nil_r.
  - rewrite outcome_bind, outcome_compile_filters, Hc.
    rewrite outcome_bind, group_loop_run by (by rewrite length_fmap).
    cbn [outcome]. destruct (first_unmatched predicates state) as [[??]|]; [done |].
    cbn. unfold groups_of. do 3 f_equal.
    clear. induction predicates; [done | cbn; by f_equal].
Qed.

Lemma split_raise_compile (node : Node) (filters : list Literal) (e : exn) :
  mapM to_predicate filters = Raise e →
  outcome (split flatten to_predicate node filters) = Raise e ∧
  Forall is_compile (trace (split flatten to_predicate node filters)).
Proof.
  intros Hc. unfold split. destruct (flatten node) as [graphdef state].
  rewrite outcome_bind, trace_bind, outcome_compile_filters, Hc.
  rewrite app_nil_r. split; [done | apply trace_compile_filters_is_compile].
Qed.

Lemma split_Ok_compiled (node : Node) (filters : list Literal) r :
  outcome (split flatten to_predicate node filters) = Ok r →
  ∃ predicates, mapM to_predicate filters = Ok predicates.
Proof.
  intros H. destruct (mapM to_predicate filters) as [ps|e] eqn:E; [by eexists |].
  destruct (split_raise_compile node filters e E) as [H' _]. congruence.
Qed.

(** C1: with the filters compiled to [predicates], [split] compiles the
    filters and then goes through the pairs in the order of the flat state;
    for each pair it calls the predicates in the order of the filters up to
    the first one that returns true, stores the pair in the group of that
    predicate and calls no further predicate for the pair. The groups it
    returns are those of first-match-wins. *)
Theorem split_first_match_wins (node : Node) (filters : list Literal)
    (predicates : list Predicate) :
  mapM to_predicate filters = Ok predicates →
  trace (split flatten to_predicate node filters) =
    (EvCompile <$> filters) ++
    (reached predicates (flatten node).2 ≫= pair_events predicates)
  ∧ outcome (split flatten to_predicate node filters) =
    match first_unmatched predicates (flatten node).2 with
    | Some (path, value) => Raise (ValueError_no_filter_matched path value)
    | None => Ok ((flatten node).1, groups_of predicates (flatten node).2)
    end.
Proof. intros Hc. by rewrite (split_run node filters predicates Hc). Qed.

(** C2: when the locations of the flat state are distinct and every pair is
    matched by at least one compiled predicate, [split] returns one group per
    filter, every pair lies in exactly one group, the groups are pairwise
    disjoint and their union is the flat state. *)
Theorem split_partition (node : Node) (filters : list Literal)
    (predicates : list Predicate) :
  mapM to_predicate filters = Ok predicates →
  NoDup (flatten node).2.*1 →
  (∀ path value, (path, value) ∈ (flatten node).2 →
     ∃ p, p ∈ predicates ∧ p path value = true) →
  ∃ groups : list FlatState,
    outcome (split flatten to_predicate node filters)
      = Ok ((flatten node).1, groups) ∧
    length groups = length filters ∧
    (∀ path value, (path, value) ∈ (flatten node).2 →
       ∃ i m, groups !! i = Some m ∧ m !! path = Some value ∧
              ∀ j m', groups !! j = Some m' → is_Some (m' !! path) → j = i) ∧
    (∀ i j mi mj, i ≠ j → groups !! i = Some mi → groups !! j = Some mj →
       mi ##ₘ mj) ∧
    ⋃ groups = list_to_map (flatten node).2.
Proof.
  intros Hc Hnd Hex. exists (groups_of predicates (flatten node).2).
  rewrite (split_run node filters predicates Hc). cbn [outcome].
  assert (first_unmatched predicates (flatten node).2 = None) as ->
    by by apply first_unmatched_None.
  split_and!.
  - done.
  - by rewrite length_groups_of, (length_mapM _ _ Hc).
  - intros path value Hin.
    destruct (proj2 (first_match_is_Some predicates path value) (Hex _ _ Hin))
      as [i Hi].
    destruct (groups_of_assigned _ _ _ _ _ Hnd Hin Hi) as (m & Hm & Hpv).
    exists i, m. split_and!; [done.. |]. intros j m' Hj Hp.
    eapply groups_of_disjoint; [done | exact Hj | exact Hm | done | by eexists].
  - intros i j mi mj Hij Hi Hj. apply map_disjoint_spec. intros p x y Hx Hy.
    apply Hij. by eapply (groups_of_disjoint _ _ i j mi mj p Hnd).
  - apply groups_of_union; [done |]. intros p v Hin.
    apply first_match_is_Some. by apply Hex.
Qed.

(** C3, as amended: when some pair of the flat state is matched by no
    compiled predicate, [split] raises the [ValueError] that names the path
    and the value of the first such pair in the order of the flat state, and
    returns no groups. *)
Theorem split_unmatched_raises (node : Node) (filters : list Literal)
    (predicates : list Predicate) (pairs1 pairs2 : list (KeyPath * Value))
    (path : KeyPath) (value : Value) :
  mapM to_predicate filters = Ok predicates →
  (flatten node).2 = pairs1 ++ (path, value) :: pairs2 →
  (∀ p v, (p, v) ∈ pairs1 → ∃ q, q ∈ predicates ∧ q p v = true) →
  (∀ q, q ∈ predicates → q path value = false) →
  outcome (split flatten to_predicate node filters)
    = Raise (ValueError_no_filter_matched path value) ∧
  ∀ r, outcome (split flatten to_predicate node filters) ≠ Ok r.
Proof.
  intros Hc Hst H1 Hnone.
  rewrite (split_run node filters predicates Hc). cbn [outcome].
  rewrite Hst, (first_unmatched_app _ _ _ _ _ H1 Hnone). done.
Qed.

(** C9: when the locations of the flat state are distinct, the groups that
    [split] returns are pairwise disjoint, whatever the filters are: no path
    is a key of two groups. *)
Theorem split_groups_disjoint (node : Node) (filters : list Literal)
    (graphdef : GraphDef) (groups : list FlatState)
    (i j : nat) (mi mj : FlatState) :
  NoDup (flatten node).2.*1 →
  outcome (split flatten to_predicate node filters) = Ok (graphdef, groups) →
  i ≠ j → groups !! i = Some mi → groups !! j = Some mj →
  mi ##ₘ mj.
Proof.
  intros Hnd Hout Hij Hi Hj.
  destruct (split_Ok_compiled _ _ _ Hout) as [predicates Hc].
  rewrite (split_run node filters predicates Hc) in Hout. cbn [outcome] in Hout.
  destruct (first_unmatched _ _) as [[??]|]; [done |]. injection Hout as _ <-.
  apply map_disjoint_spec. intros p x y Hx Hy.
  apply Hij. by eapply (groups_of_disjoint _ _ i j mi mj p Hnd).
Qed.

End split_properties.

(** ** The predicate of a type *)

Lemma is_param_OfType_call : is_param = OfType_call Param.
Proof. reflexivity. Qed.

Lemma OfType_call_Ok (K : Class) (path : KeyPath) (value : Value) :
  OfType_call K path value = Ok (filterlib.OfType K path value).
Proof.
  unfold OfType_call, filterlib.OfType, isinstance, hasattr_type, getattr_type.
  unfold py_or, py_and. cbn [result_bind].
  destruct (issubclass (ob_type value) K); [done |].
  destruct (attr_type value) as [t|]; [|done].
  rewrite bool_decide_eq_true_2 by by eexists. done.
Qed.

Lemma OfType_true (K : Class) (path : KeyPath) (value : Value) :
  filterlib.OfType K path value = true ↔
  SubKind (ob_type value) K ∨ ∃ t, attr_type value = Some t ∧ SubKind t K.
Proof.
  unfold filterlib.OfType. rewrite orb_true_iff, issubclass_SubKind.
  destruct (attr_type value) as [t|].
  - rewrite issubclass_SubKind. split; (intros [H | H]; [by left | right]).
    + by exists t.
    + by destruct H as (? & [= <-] & ?).
  - split; (intros [H | H]; [by left |]); [done | by destruct H as (? & ? & _)].
Qed.

(** C4: a type [K] compiles to a predicate, the one the guide writes out as
    [is_param] for [Param]; it returns true exactly on the values whose class
    is [K] or a subclass of [K], or whose [type] attribute is; so it matches
    the values of every sub-kind of [K]. *)
Theorem to_predicate_type (K : Class) :
  ∃ P : Predicate,
    filterlib.to_predicate (LType K) = Ok P ∧
    (∀ path value, OfType_call K path value = Ok (P path value)) ∧
    (∀ path value,
       P path value = true ↔
       SubKind (ob_type value) K ∨
       ∃ t, attr_type value = Some t ∧ SubKind t K) ∧
    (∀ K' path value, SubKind K' K → of_kind value K' → P path value = true).
Proof.
  exists (filterlib.OfType K). split_and!.
  - done.
  - apply OfType_call_Ok.
  - apply OfType_true.
  - intros K' path value Hsub [<- | Ht]; apply OfType_true; [by left | right].
    by exists K'.
Qed.

(** C10: on a value that is no instance of the requested type and has no
    [type] attribute, the predicate returns false: reading the attribute
    would raise [AttributeError], and the [hasattr] check keeps the predicate
    from reading it. *)
Theorem OfType_call_guarded (K : Class) (path : KeyPath) (value : Value) :
  isinstance value K = false →
  hasattr_type value = false →
  OfType_call K path value = Ok false ∧
  getattr_type value = Raise (AttributeError "type").
Proof.
  intros Hinst Hattr. unfold OfType_call, py_or, py_and. cbn [result_bind].
  rewrite Hinst, Hattr. split; [done |].
  unfold hasattr_type in Hattr. apply bool_decide_eq_false in Hattr.
  unfold getattr_type. destruct (attr_type value); [|done].
  destruct Hattr. by eexists.
Qed.

(** ** The compiler of [nnx.filterlib] *)

Lemma Literal_ind (P : Literal → Prop) :
  P LEllipsis → (∀ b, P (LBool b)) → P LNone → (∀ K, P (LType K)) →
  (∀ s, P (LStr s)) →
  (∀ filters, Forall P filters → P (LTuple filters)) →
  (∀ filters, Forall P filters → P (LList filters)) →
  (∀ p, P (LCallable p)) → (∀ repr, P (LOther repr)) →
  ∀ filter, P filter.
Proof.
  intros H1 H2 H3 H4 H5 Htuple Hlist H6 H7. fix IH 1.
  intros [|b| |K|s|fs|fs|p|repr];
    [apply H1 | apply H2 | apply H3 | apply H4 | apply H5 | | | apply H6 | apply H7].
  - apply Htuple. induction fs as [|f fs IHfs]; constructor; [apply IH | apply IHfs].
  - apply Hlist. induction fs as [|f fs IHfs]; constructor; [apply IH | apply IHfs].
Qed.

Lemma Any_true (predicates : list Predicate) (path : KeyPath) (value : Value) :
  filterlib.Any predicates path value = true ↔
  ∃ p, p ∈ predicates ∧ p path value = true.
Proof.
  induction predicates as [|q predicates IH]; cbn [filterlib.Any].
  - split; [done | by intros (? & ?%elem_of_nil & _)].
  - destruct (q path value) eqn:E.
    + split; [|done]. intros _. exists q. split; [left | done].
    + rewrite IH. split; intros (p & Hin & Hp).
      * exists p. split; [by right | done].
      * apply elem_of_cons in Hin as [-> | Hin]; [congruence | by exists p].
Qed.

Lemma to_predicate_seq (filters : list Literal) :
  filterlib.to_predicate (LList filters) =
    (mapM filterlib.to_predicate filters ≫= fun ps => Ok (filterlib.Any ps))
  ∧ filterlib.to_predicate (LTuple filters) =
    (mapM filterlib.to_predicate filters ≫= fun ps => Ok (filterlib.Any ps)).
Proof. done. Qed.

Lemma mapM_by_form (filters : list Literal) :
  Forall compiles_by_form filters →
  if existsb unrecognized filters
  then ∃ repr, mapM filterlib.to_predicate filters
               = Raise (TypeError_invalid_filter repr)
  else ∃ ps, mapM filterlib.to_predicate filters = Ok ps.
Proof.
  induction 1 as [|f filters Hf _ IH]; [by eexists |].
  rewrite mapM_cons. cbn [existsb]. unfold compiles_by_form in Hf.
  destruct (unrecognized f); cbn [orb].
  - destruct Hf as [repr ->]. by exists repr.
  - destruct Hf as [p ->]. cbn. destruct (existsb unrecognized filters).
    + destruct IH as [repr ->]. by exists repr.
    + destruct IH as [ps ->]. by eexists.
Qed.

Lemma to_predicate_by_form (filter : Literal) : compiles_by_form filter.
Proof.
  induction filter as [| | | | |fs IH|fs IH| |] using Literal_ind;
    unfold compiles_by_form; cbn [unrecognized]; try by eexists.
  - rewrite (proj2 (to_predicate_seq fs)). apply mapM_by_form in IH.
    destruct (existsb unrecognized fs).
    + destruct IH as [repr ->]. by exists repr.
    + destruct IH as [ps ->]. by eexists.
  - rewrite (proj1 (to_predicate_seq fs)). apply mapM_by_form in IH.
    destruct (existsb unrecognized fs).
    + destruct IH as [repr ->]. by exists repr.
    + destruct IH as [ps ->]. by eexists.
Qed.

(** C6: a non-empty list or tuple of literals that compile one by one to
    [Ps] compiles to a predicate that returns true on a pair exactly when one
    of [Ps] does: their logical OR. *)
Theorem to_predicate_list_any (filters : list Literal) (Ps : list Predicate) :
  filters ≠ [] →
  mapM filterlib.to_predicate filters = Ok Ps →
  ∃ P : Predicate,
    filterlib.to_predicate (LList filters) = Ok P ∧
    filterlib.to_predicate (LTuple filters) = Ok P ∧
    ∀ path value,
      P path value = foldr orb false ((fun Pi : Predicate => Pi path value) <$> Ps) ∧
      (P path value = true ↔ ∃ Pi, Pi ∈ Ps ∧ Pi path value = true).
Proof.
  intros _ Hc. exists (filterlib.Any Ps).
  destruct (to_predicate_seq filters) as [-> ->]. rewrite Hc. split_and!; [done.. |].
  intros path value. split; [|apply Any_true].
  clear. induction Ps as [|Pi Ps IH]; [done |].
  cbn [filterlib.Any fmap list_fmap foldr]. rewrite <- IH. by destruct (Pi path value).
Qed.

(** C7: [...] and [True] compile to a predicate that returns true on every
    pair, [None] and [False] to one that returns false on every pair. *)
Theorem to_predicate_sentinels :
  (∃ P : Predicate, filterlib.to_predicate LEllipsis = Ok P ∧
                    ∀ path value, P path value = true) ∧
  (∃ P : Predicate, filterlib.to_predicate (LBool true) = Ok P ∧
                    ∀ path value, P path value = true) ∧
  (∃ P : Predicate, filterlib.to_predicate LNone = Ok P ∧
                    ∀ path value, P path value = false) ∧
  (∃ P : Predicate, filterlib.to_predicate (LBool false) = Ok P ∧
                    ∀ path value, P path value = false).
Proof.
  split_and!; [exists filterlib.Everything | exists filterlib.Everything
              | exists filterlib.Nothing | exists filterlib.Nothing]; done.
Qed.

(** ** [nnx.split] with the compiler of [nnx.filterlib] *)

Lemma nnx_split_run {GraphDef : Type} (graphdef : GraphDef)
    (state : list (KeyPath * Value)) (filters : list Literal)
    (predicates : list Predicate) :
  mapM filterlib.to_predicate filters = Ok predicates →
  nnx_split (graphdef, state) filters =
  Run ((EvCompile <$> filters) ++ (reached predicates state ≫= pair_events predicates))
      (match first_unmatched predicates state with
       | Some (path, value) => Raise (ValueError_no_filter_matched path value)
       | None => Ok (graphdef, groups_of predicates state)
       end).
Proof. intros Hc. unfold nnx_split. by rewrite (split_run id _ _ _ _ Hc). Qed.

(** C5: for a single entry [a] of kind [SpecialK], a sub-kind of [K],
    splitting with [K, SpecialK] puts [a] in group 0 (that of [K]) and leaves
    group 1 empty; splitting with [SpecialK, K] puts [a] in group 0 (that of
    [SpecialK]) and leaves group 1 empty. *)
Theorem split_order_sensitive {GraphDef : Type} (graphdef : GraphDef)
    (K SpecialK : Class) (path : KeyPath) (a : Value) :
  SubKind SpecialK K →
  of_kind a SpecialK →
  outcome (nnx_split (graphdef, [(path, a)]) [LType K; LType SpecialK])
    = Ok (graphdef, [ {[ path := a ]}; ∅ ]) ∧
  outcome (nnx_split (graphdef, [(path, a)]) [LType SpecialK; LType K])
    = Ok (graphdef, [ {[ path := a ]}; ∅ ]).
Proof.
  intros Hsub Hkind.
  assert (HK : filterlib.OfType K path a = true).
  { apply OfType_true. destruct Hkind as [<- | Ht]; [by left | right; by eexists]. }
  assert (HS : filterlib.OfType SpecialK path a = true).
  { apply OfType_true.
    destruct Hkind as [<- | Ht]; [left | right; eexists; split; [done |]]; constructor. }
  split.
  - rewrite (nnx_split_run _ _ _ [filterlib.OfType K; filterlib.OfType SpecialK])
      by done.
    unfold first_unmatched, groups_of, assign. cbn [outcome list_find foldl fst snd].
    rewrite first_match_cons, HK. cbn. by rewrite insert_empty.
  - rewrite (nnx_split_run _ _ _ [filterlib.OfType SpecialK; filterlib.OfType K])
      by done.
    unfold first_unmatched, groups_of, assign. cbn [outcome list_find foldl fst snd].
    rewrite first_match_cons, HS. cbn. by rewrite insert_empty.
Qed.

(** C8: when one of the filters is a literal of no recognized form, or holds
    one in a list or tuple, [split] raises the [TypeError] of the compiler
    and its run consists of calls of the compiler only: no predicate has been
    called on a pair and no pair has been stored. In every run, all filters
    have been compiled before the first call on a pair. *)
Theorem split_invalid_filter {GraphDef : Type}
    (node : GraphDef * list (KeyPath * Value)) (filters : list Literal) :
  Exists (fun f => unrecognized f = true) filters →
  (∃ repr, outcome (nnx_split node filters)
           = Raise (TypeError_invalid_filter repr)) ∧
  Forall is_compile (trace (nnx_split node filters)) ∧
  (∀ (node' : GraphDef * list (KeyPath * Value)) filters' t1 ev t2,
     trace (nnx_split node' filters') = t1 ++ ev :: t2 →
     ¬ is_compile ev →
     ∃ t, t1 = (EvCompile <$> filters') ++ t).
Proof.
  intros Hex.
  assert (Hraise : ∃ repr, mapM filterlib.to_predicate filters
                           = Raise (TypeError_invalid_filter repr)).
  { pose proof (mapM_by_form filters) as H.
    assert (existsb unrecognized filters = true) as Hb.
    { apply existsb_exists. apply Exists_exists in Hex as (f & Hin & Hf).
      exists f. by rewrite <- list_elem_of_In. }
    rewrite Hb in H. apply H, Forall_forall. intros f _. apply to_predicate_by_form. }
  destruct Hraise as [repr Hc].
  destruct (split_raise_compile id filterlib.to_predicate node filters _ Hc)
    as [Hout Htr].
  split_and!; [by exists repr | done |].
  clear. intros [graphdef state] filters t1 ev t2 Htrace Hev.
  destruct (mapM filterlib.to_predicate filters) as [predicates|e] eqn:Hc.
  - rewrite (nnx_split_run _ _ _ _ Hc) in Htrace. cbn [trace] in Htrace.
    symmetry in Htrace.
    apply app_eq_inv in Htrace as [(k & Hk & _) | (k & Hk & Hev')]; [by exists k |].
    destruct k as [|ev' k].
    + exists []. rewrite app_nil_r in Hk. by rewrite app_nil_r.
    + injection Hev' as <- _. destruct Hev.
      assert (ev ∈ EvCompile <$> filters) as (f & -> & _)%list_elem_of_fmap; [|done].
      rewrite Hk. apply elem_of_app. right. left.
  - destruct (split_raise_compile id filterlib.to_predicate (graphdef, state)
                filters _ Hc) as [_ Htr].
    fold (nnx_split (graphdef, state) filters) in Htr. rewrite Htrace in Htr.
    apply Forall_app in Htr as [_ Htr]. apply Forall_cons in Htr as [Htr _]. done.
Qed.

(** ** The runs of the guide *)

Example is_param_Param : is_param [] (MkValue Param None None 0) = Ok true.
Proof. reflexivity. Qed.

Example is_param_VariableState : is_param [] (variable_state Param 0) = Ok true.
Proof. reflexivity. Qed.

Example split_foo :
  outcome (nnx_split foo [LType Param; LType BatchStat])
  = Ok (tt, [ {[ [inl "a"] := variable_state Param 0 ]};
              {[ [inl "b"] := variable_state BatchStat 1 ]} ]).
Proof. vm_compute. reflexivity. Qed.

Example split_bar_Param_first :
  outcome (nnx_split bar [LType Param; LType SpecialParam])
  = Ok (tt, [ {[ [inl "a"] := variable_state Param 0;
                 [inl "b"] := variable_state SpecialParam 0 ]};
              ∅ ]).
Proof. vm_compute. reflexivity. Qed.

Example split_bar_SpecialParam_first :
  outcome (nnx_split bar [LType SpecialParam; LType Param])
  = Ok (tt, [ {[ [inl "b"] := variable_state SpecialParam 0 ]};
              {[ [inl "a"] := variable_state Param 0 ]} ]).
Proof. vm_compute. reflexivity. Qed.

Example to_predicate_Param_or_dropout :
  filterlib.to_predicate (LTuple [LType Param; LStr "dropout"])
  = Ok (filterlib.Any [filterlib.OfType Param; filterlib.WithTag "dropout"]).
Proof. reflexivity. Qed.

(** ** The properties at the objects of the guide *)

Lemma split_first_match_wins_bar :
  trace (nnx_split bar [LType Param; LType SpecialParam]) =
    [ EvCompile (LType Param); EvCompile (LType SpecialParam);
      EvCall 0 [inl "a"] (variable_state Param 0);
      EvStore 0 [inl "a"] (variable_state Param 0);
      EvCall 0 [inl "b"] (variable_state SpecialParam 0);
      EvStore 0 [inl "b"] (variable_state SpecialParam 0) ] ∧
  outcome (nnx_split bar [LType Param; LType SpecialParam]) =
    Ok (tt, [ {[ [inl "a"] := variable_state Param 0;
                 [inl "b"] := variable_state SpecialParam 0 ]};
              ∅ ]).
Proof.
  pose proof (split_first_match_wins id filterlib.to_predicate bar
                [LType Param; LType SpecialParam]
                [filterlib.OfType Param; filterlib.OfType SpecialParam]
                eq_refl) as H.
  vm_compute in H. vm_compute. exact H.
Defined.

Lemma NoDup_foo : NoDup foo.2.*1.
Proof. apply (bool_decide_unpack _). vm_compute. reflexivity. Defined.

Lemma NoDup_bar : NoDup bar.2.*1.
Proof. apply (bool_decide_unpack _). vm_compute. reflexivity. Defined.

Lemma split_partition_foo :
  ∃ groups : list FlatState,
    outcome (nnx_split foo [LType Param; LType BatchStat]) = Ok (tt, groups) ∧
    length groups = 2 ∧
    (∀ path value, (path, value) ∈ foo.2 →
       ∃ i m, groups !! i = Some m ∧ m !! path = Some value ∧
              ∀ j m', groups !! j = Some m' → is_Some (m' !! path) → j = i) ∧
    (∀ i j mi mj, i ≠ j → groups !! i = Some mi → groups !! j = Some mj →
       mi ##ₘ mj) ∧
    ⋃ groups = list_to_map foo.2.
Proof.
  apply (split_partition id filterlib.to_predicate foo
           [LType Param; LType BatchStat]
           [filterlib.OfType Param; filterlib.OfType BatchStat]).
  - reflexivity.
  - exact NoDup_foo.
  - intros path value Hin. cbn in Hin.
    apply elem_of_cons in Hin as [Hin | Hin].
    + injection Hin as -> ->. exists (filterlib.OfType Param).
      split; [left | reflexivity].
    + apply list_elem_of_singleton in Hin. injection Hin as -> ->.
      exists (filterlib.OfType BatchStat). split; [right; left | reflexivity].
Defined.

Lemma split_unmatched_raises_foo :
  outcome (nnx_split foo [LType Param])
    = Raise (ValueError_no_filter_matched [inl "b"] (variable_state BatchStat 1)) ∧
  ∀ r, outcome (nnx_split foo [LType Param]) ≠ Ok r.
Proof.
  apply (split_unmatched_raises id filterlib.to_predicate foo [LType Param]
           [filterlib.OfType Param]
           [([inl "a"], variable_state Param 0)] []).
  - reflexivity.
  - reflexivity.
  - intros p v Hin. apply list_elem_of_singleton in Hin. injection Hin as -> ->.
    exists (filterlib.OfType Param). split; [left | reflexivity].
  - intros q Hq. apply list_elem_of_singleton in Hq. subst q. reflexivity.
Defined.

(** C3 fails as stated: in [foo] no predicate of [split(foo, None)] matches
    the pair at [b], and the [ValueError] names the pair at [a], the first
    one that is not matched. *)
Lemma split_unmatched_names_first :
  ¬ (∀ path value,
       (path, value) ∈ foo.2 →
       (∀ q, q ∈ [filterlib.Nothing] → q path value = false) →
       outcome (nnx_split foo [LNone])
         = Raise (ValueError_no_filter_matched path value)).
Proof.
  intros H.
  specialize (H [inl "b"] (variable_state BatchStat 1)).
  assert (Hin : ([inl "b"], variable_state BatchStat 1) ∈ foo.2)
    by (right; left).
  assert (Hnone : ∀ q : Predicate, q ∈ [filterlib.Nothing] →
                     q [inl "b"] (variable_state BatchStat 1) = false).
  { intros q Hq. apply list_elem_of_singleton in Hq. by subst q. }
  specialize (H Hin Hnone). vm_compute in H. discriminate H.
Qed.

Lemma split_order_sensitive_SpecialParam :
  outcome (nnx_split (tt, [([inl "b"], variable_state SpecialParam 0)])
                     [LType Param; LType SpecialParam])
    = Ok (tt, [ {[ [inl "b"] := variable_state SpecialParam 0 ]}; ∅ ]) ∧
  outcome (nnx_split (tt, [([inl "b"], variable_state SpecialParam 0)])
                     [LType SpecialParam; LType Param])
    = Ok (tt, [ {[ [inl "b"] := variable_state SpecialParam 0 ]}; ∅ ]).
Proof.
  apply (split_order_sensitive tt Param SpecialParam).
  - apply issubclass_SubKind. reflexivity.
  - right. reflexivity.
Defined.

Lemma to_predicate_list_any_Param_or_dropout :
  ∃ P : Predicate,
    filterlib.to_predicate (LList [LType Param; LStr "dropout"]) = Ok P ∧
    filterlib.to_predicate (LTuple [LType Param; LStr "dropout"]) = Ok P ∧
    ∀ path value,
      P path value =
        foldr orb false
          ((fun Pi : Predicate => Pi path value) <$>
             [filterlib.OfType Param; filterlib.WithTag "dropout"]) ∧
      (P path value = true ↔
       ∃ Pi, Pi ∈ [filterlib.OfType Param; filterlib.WithTag "dropout"] ∧
             Pi path value = true).
Proof.
  apply (to_predicate_list_any [LType Param; LStr "dropout"]).
  - discriminate.
  - reflexivity.
Defined.

Lemma split_invalid_filter_foo :
  (∃ repr, outcome (nnx_split foo [LType Param; LOther "42"])
           = Raise (TypeError_invalid_filter repr)) ∧
  Forall is_compile (trace (nnx_split foo [LType Param; LOther "42"])).
Proof.
  assert (Hex : Exists (fun f => unrecognized f = true) [LType Param; LOther "42"]).
  { right. left. reflexivity. }
  destruct (split_invalid_filter foo [LType Param; LOther "42"] Hex)
    as (Hout & Htr & _).
  split; [exact Hout | exact Htr].
Defined.

Lemma split_groups_disjoint_bar :
  ({[ [inl "a"] := variable_state Param 0;
      [inl "b"] := variable_state SpecialParam 0 ]} : FlatState) ##ₘ ∅.
Proof.
  apply (split_groups_disjoint id filterlib.to_predicate bar
           [LType Param; LType SpecialParam] tt
           [ {[ [inl "a"] := variable_state Param 0;
                [inl "b"] := variable_state SpecialParam 0 ]}; ∅ ] 0 1).
  - exact NoDup_bar.
  - vm_compute. reflexivity.
  - lia.
  - reflexivity.
  - reflexivity.
Defined.

Lemma is_param_guarded_array :
  is_param [] (MkValue (MkClass "Array" [object_]) None None 0) = Ok false ∧
  getattr_type (MkValue (MkClass "Array" [object_]) None None 0)
    = Raise (AttributeError "type").
Proof.
  apply (OfType_call_guarded Param []); reflexivity.
Defined.

(** ** Further properties of [split]: errors and edge cases *)

Section split_errors.
Context {Node GraphDef : Type}.
Variable flatten : Node → GraphDef * list (KeyPath * Value).
Variable to_predicate : Literal → result Predicate.


Lemma compile_filters_stops (fs1 fs2 : list Literal) (f : Literal)
    (ps : list Predicate) (e : exn) :
  mapM to_predicate fs1 = Ok ps →
  to_predicate f = Raise e →
  compile_filters to_predicate (fs1 ++ f :: fs2) =
  Run (EvCompile <$> (fs1 ++ [f])) (Raise e).
Proof.
  revert ps. induction fs1 as [|f1 fs1 IH]; intros ps Hc Hf.
  - cbn [app compile_filters]. apply M_eq.
    + rewrite !trace_bind. cbn [tell lift outcome trace]. by rewrite Hf.
    + rewrite !outcome_bind. cbn [tell lift outcome]. by rewrite Hf.
  - rewrite mapM_cons in Hc. destruct (to_predicate f1) as [p1|] eqn:E1; [|done].
    cbn in Hc. destruct (mapM to_predicate fs1) as [ps1|] eqn:E; [|done].
    cbn [app compile_filters]. apply M_eq.
    + rewrite !trace_bind. cbn [tell lift outcome trace]. rewrite E1. cbn.
      rewrite trace_bind, (IH ps1) by done. cbn. by rewrite app_nil_r.
    + rewrite !outcome_bind. cbn [tell lift outcome]. rewrite E1.
      rewrite outcome_bind, (IH ps1) by done. done.
Qed.


(** X2: the filters are compiled one after the other and compilation stops
    at the first filter on which [to_predicate] raises: the filters after it
    are not compiled, no predicate is called, and the error is the one of
    that filter. *)
Theorem split_compile_stops (node : Node) (fs1 fs2 : list Literal)
    (f : Literal) (ps : list Predicate) (e : exn) :
  mapM to_predicate fs1 = Ok ps →
  to_predicate f = Raise e →
  split flatten to_predicate node (fs1 ++ f :: fs2) =
  Run (EvCompile <$> (fs1 ++ [f])) (Raise e).
Proof.
  intros Hc Hf. unfold split. destruct (flatten node) as [graphdef state].
  apply M_eq.
  - rewrite trace_bind, (compile_filters_stops _ _ _ _ _ Hc Hf). cbn.
    by rewrite app_nil_r.
  - by rewrite outcome_bind, (compile_filters_stops _ _ _ _ _ Hc Hf).
Qed.

(** X3: with the filters compiled, [split] returns groups exactly when every
    pair of the flat state is matched by at least one of the predicates. *)
Theorem split_succeeds_iff (node : Node) (filters : list Literal)
    (predicates : list Predicate) :
  mapM to_predicate filters = Ok predicates →
  (∃ r, outcome (split flatten to_predicate node filters) = Ok r) ↔
  (∀ path value, (path, value) ∈ (flatten node).2 →
     ∃ q, q ∈ predicates ∧ q path value = true).
Proof.
  intros Hc. rewrite (split_run flatten _ node filters predicates Hc).
  cbn [outcome]. rewrite <- first_unmatched_None.
  destruct (first_unmatched predicates (flatten node).2) as [[??]|].
  - split; [by intros [? ?] | done].
  - split; [done | by eexists].
Qed.

(** X4: [split(node)] without filters returns the graph definition and no
    group when the flat state is empty, and otherwise raises the [ValueError]
    for the first pair, without any call. *)
Theorem split_no_filters (node : Node) :
  split flatten to_predicate node [] =
  Run [] (match (flatten node).2 with
          | [] => Ok ((flatten node).1, [])
          | (path, value) :: _ => Raise (ValueError_no_filter_matched path value)
          end).
Proof.
  rewrite (split_run flatten to_predicate node [] [] eq_refl).
  destruct (flatten node).2 as [|[path value] state]; [done |].
  unfold first_unmatched. cbn [list_find reached fst snd first_match fmap].
  done.
Qed.

(** X5: on a node whose flat state is empty, [split] compiles the filters,
    calls no predicate and returns one empty group for each filter. *)
Theorem split_empty_state (node : Node) (filters : list Literal)
    (predicates : list Predicate) :
  (flatten node).2 = [] →
  mapM to_predicate filters = Ok predicates →
  split flatten to_predicate node filters =
  Run (EvCompile <$> filters)
      (Ok ((flatten node).1, replicate (length filters) ∅)).
Proof.
  intros Hst Hc. rewrite (split_run flatten _ node filters predicates Hc), Hst.
  cbn. rewrite app_nil_r. unfold groups_of. cbn.
  by rewrite (length_mapM _ _ _ Hc).
Qed.

(** X6: whenever [split] returns, it returns the graph definition of
    [flatten] and as many groups as there are filters. *)
Theorem split_group_count (node : Node) (filters : list Literal)
    (graphdef : GraphDef) (groups : list FlatState) :
  outcome (split flatten to_predicate node filters) = Ok (graphdef, groups) →
  graphdef = (flatten node).1 ∧ length groups = length filters.
Proof.
  intros Hout. destruct (split_Ok_compiled flatten _ _ _ _ Hout) as [predicates Hc].
  rewrite (split_run flatten _ node filters predicates Hc) in Hout.
  cbn [outcome] in Hout. destruct (first_unmatched _ _) as [[??]|]; [done |].
  injection Hout as <- <-.
  by rewrite length_groups_of, (length_mapM _ _ _ Hc).
Qed.

End split_errors.

(** ** Further properties of [split]: the groups *)

Lemma groups_of_lookup_1 (predicates : list Predicate)
    (pairs : list (KeyPath * Value)) (i : nat) (m : FlatState)
    (p : KeyPath) (v : Value) :
  groups_of predicates pairs !! i = Some m →
  m !! p = Some v →
  (p, v) ∈ pairs ∧ first_match predicates p v = Some i.
Proof.
  revert m. induction pairs as [|[p0 v0] pairs IH] using rev_ind; intros m Hm Hpv.
  - unfold groups_of in Hm. cbn [foldl] in Hm.
    apply lookup_replicate in Hm as [-> _]. by rewrite lookup_empty in Hpv.
  - rewrite groups_of_snoc in Hm. unfold assign in Hm. cbn [fst snd] in Hm.
    rewrite elem_of_app, list_elem_of_singleton.
    destruct (first_match predicates p0 v0) as [k|] eqn:E.
    + rewrite list_lookup_alter in Hm. destruct (decide (k = i)) as [-> | Hki].
      * destruct (groups_of predicates pairs !! i) as [m0|] eqn:Hm0; [|done].
        cbn in Hm. injection Hm as <-.
        destruct (decide (p = p0)) as [-> | Hne].
        -- rewrite lookup_insert_eq in Hpv. injection Hpv as <-.
           split; [by right | done].
        -- rewrite lookup_insert_ne in Hpv by done.
           destruct (IH m0 eq_refl Hpv) as [Hin Hf]. split; [by left | done].
      * destruct (IH m Hm Hpv) as [Hin Hf]. split; [by left | done].
    + destruct (IH m Hm Hpv) as [Hin Hf]. split; [by left | done].
Qed.







Section split_groups.
Context {Node GraphDef : Type}.
Variable flatten : Node → GraphDef * list (KeyPath * Value).
Variable to_predicate : Literal → result Predicate.

(** X7: over a flat state with distinct paths, the group of the [i]-th
    filter holds exactly the pairs that the [i]-th predicate matches and
    that no earlier predicate matches. *)
Theorem split_group_content (node : Node) (filters : list Literal)
    (predicates : list Predicate) (graphdef : GraphDef)
    (groups : list FlatState) (i : nat) (m : FlatState)
    (path : KeyPath) (value : Value) :
  mapM to_predicate filters = Ok predicates →
  NoDup (flatten node).2.*1 →
  outcome (split flatten to_predicate node filters) = Ok (graphdef, groups) →
  groups !! i = Some m →
  m !! path = Some value ↔
  (path, value) ∈ (flatten node).2 ∧
  ∃ q, predicates !! i = Some q ∧ q path value = true ∧
       ∀ j q', predicates !! j = Some q' → j < i → q' path value = false.
Proof.
  intros Hc Hnd Hout Hi.
  rewrite (split_run flatten _ node filters predicates Hc) in Hout.
  cbn [outcome] in Hout. destruct (first_unmatched _ _) as [[??]|]; [done |].
  injection Hout as _ <-.
  rewrite (groups_of_lookup _ _ _ _ Hnd Hi), first_match_Some. done.
Qed.


(** X9: over flat states with distinct paths, the groups do not depend on
    the order in which the pairs are traversed: when [split] returns groups
    for a node, it returns the same groups for a node whose flat state holds
    the same pairs in another order. *)
Theorem split_traversal_order (node1 node2 : Node) (filters : list Literal)
    (graphdef : GraphDef) (groups : list FlatState) :
  NoDup (flatten node1).2.*1 →
  (flatten node2).2 ≡ₚ (flatten node1).2 →
  outcome (split flatten to_predicate node1 filters) = Ok (graphdef, groups) →
  outcome (split flatten to_predicate node2 filters)
    = Ok ((flatten node2).1, groups).
Proof.
  intros Hnd Hperm Hout.
  destruct (split_Ok_compiled flatten _ _ _ _ Hout) as [predicates Hc].
  rewrite (split_run flatten _ node1 filters predicates Hc) in Hout.
  rewrite (split_run flatten _ node2 filters predicates Hc).
  cbn [outcome] in *.
  destruct (first_unmatched predicates (flatten node1).2) as [[??]|] eqn:E1;
    [done |].
  injection Hout as _ <-.
  assert (Hnd2 : NoDup (flatten node2).2.*1) by by rewrite Hperm.
  assert (first_unmatched predicates (flatten node2).2 = None) as ->.
  { apply first_unmatched_None. intros path value Hin.
    rewrite first_unmatched_None in E1. apply E1. by rewrite <- Hperm. }
  do 2 f_equal. apply list_eq. intros i.
  destruct (groups_of predicates (flatten node2).2 !! i) as [m2|] eqn:H2.
  - destruct (lookup_lt_is_Some_2 (groups_of predicates (flatten node1).2) i)
      as [m1 H1].
    { apply lookup_lt_Some in H2. by rewrite length_groups_of in *. }
    rewrite H1. f_equal. apply map_eq. intros p. apply option_eq. intros v.
    rewrite (groups_of_lookup _ _ _ _ Hnd H1), (groups_of_lookup _ _ _ _ Hnd2 H2).
    by rewrite Hperm.
  - symmetry. apply lookup_ge_None. apply lookup_ge_None in H2.
    by rewrite length_groups_of in *.
Qed.

(** X10: a filter that comes after a more general one gets an empty group:
    when every pair of the flat state that the [j]-th predicate matches is
    also matched by the [i]-th one, with [i < j], the [j]-th group that
    [split] returns is empty. *)
Theorem split_absorbed (node : Node) (filters : list Literal)
    (predicates : list Predicate) (graphdef : GraphDef)
    (groups : list FlatState) (i j : nat) (pi pj : Predicate) :
  mapM to_predicate filters = Ok predicates →
  predicates !! i = Some pi →
  predicates !! j = Some pj →
  i < j →
  (∀ path value, (path, value) ∈ (flatten node).2 →
     pj path value = true → pi path value = true) →
  outcome (split flatten to_predicate node filters) = Ok (graphdef, groups) →
  groups !! j = Some ∅.
Proof.
  intros Hc Hi Hj Hij Himp Hout.
  rewrite (split_run flatten _ node filters predicates Hc) in Hout.
  cbn [outcome] in Hout. destruct (first_unmatched _ _) as [[??]|]; [done |].
  injection Hout as _ <-.
  destruct (lookup_lt_is_Some_2 (groups_of predicates (flatten node).2) j)
    as [m Hm].
  { rewrite length_groups_of. by eapply lookup_lt_Some. }
  rewrite Hm. f_equal. apply map_empty. intros p.
  destruct (m !! p) as [v|] eqn:Hp; [|done].
  destruct (groups_of_lookup_1 _ _ _ _ _ _ Hm Hp) as [Hin Hf].
  apply first_match_Some in Hf as (q & Hq & Ht & Hlt).
  pose proof (eq_trans (eq_sym Hj) Hq) as Heq. injection Heq as <-.
  specialize (Himp p v Hin Ht). rewrite (Hlt i pi Hi Hij) in Himp. done.
Qed.

End split_groups.

(** ** Further properties of [split]: more filters, more pairs *)

Lemma first_match_app_l (predicates more : list Predicate)
    (path : KeyPath) (value : Value) (k : nat) :
  first_match predicates path value = Some k →
  first_match (predicates ++ more) path value = Some k.
Proof.
  unfold first_match.
  destruct (list_find _ predicates) as [[k' q]|] eqn:E; [|done].
  intros [= <-]. by rewrite (list_find_app_l _ _ more _ _ E).
Qed.

Lemma foldl_assign_more (predicates more : list Predicate)
    (pairs : list (KeyPath * Value)) (fs gs : list FlatState) :
  length fs = length predicates →
  first_unmatched predicates pairs = None →
  foldl (assign (predicates ++ more)) (fs ++ gs) pairs =
  foldl (assign predicates) fs pairs ++ gs.
Proof.
  revert fs. induction pairs as [|[p v] pairs IH]; intros fs Hlen Hnone; [done |].
  unfold first_unmatched in Hnone. cbn [list_find fst snd] in Hnone.
  cbn [foldl]. unfold assign at 2 4. cbn [fst snd].
  destruct (first_match predicates p v) as [k|] eqn:E.
  - rewrite (first_match_app_l _ more _ _ _ E).
    rewrite alter_app_l by (rewrite Hlen; by eapply first_match_lt).
    apply IH; [by rewrite length_alter |].
    rewrite decide_False in Hnone by done.
    unfold first_unmatched. by destruct (list_find _ pairs).
  - by rewrite decide_True in Hnone.
Qed.

Lemma alter_zip_with_l {A B C} (f : C → C) (f' : A → A) (g : A → B → C)
    (l : list A) (k : list B) (i : nat) :
  (∀ a b, f (g a b) = g (f' a) b) →
  alter f i (zip_with g l k) = zip_with g (alter f' i l) k.
Proof.
  intros Hfg. revert k i. induction l as [|a l IH]; intros [|b k] [|i]; try done.
  - cbn. by rewrite Hfg.
  - cbn. f_equal. apply IH.
Qed.

Lemma foldl_assign_union (predicates : list Predicate)
    (pairs : list (KeyPath * Value)) (fs : list FlatState) :
  length fs = length predicates →
  foldl (assign predicates) fs pairs =
  zip_with (∪) (groups_of predicates pairs) fs.
Proof.
  intros Hlen. induction pairs as [|[p v] pairs IH] using rev_ind.
  - unfold groups_of. cbn [foldl].
    rewrite zip_with_replicate_l by lia.
    induction fs as [|m fs IHfs] in |- *; [done |].
    cbn. by rewrite (left_id_L ∅ (∪)), <- IHfs at 1.
  - rewrite foldl_app, groups_of_snoc. cbn [foldl]. rewrite IH.
    unfold assign. cbn [fst snd]. destruct (first_match predicates p v); [|done].
    apply alter_zip_with_l. intros a b. apply insert_union_l.
Qed.

Section split_compose.
Context {Node GraphDef : Type}.
Variable flatten : Node → GraphDef * list (KeyPath * Value).
Variable to_predicate : Literal → result Predicate.

Lemma mapM_app (filters more : list Literal) (ps qs : list Predicate) :
  mapM to_predicate filters = Ok ps →
  mapM to_predicate more = Ok qs →
  mapM to_predicate (filters ++ more) = Ok (ps ++ qs).
Proof.
  revert ps. induction filters as [|f filters IH]; intros ps.
  - by intros [= <-].
  - cbn [app]. rewrite !mapM_cons. destruct (to_predicate f) as [p|]; [|done].
    cbn. destruct (mapM to_predicate filters) as [ps'|]; [|done].
    cbn. intros [= <-] Hq. by rewrite (IH ps' eq_refl Hq).
Qed.

(** X11: filters added after filters that already cover the flat state
    change nothing: when [split] returns groups for [filters], it returns the
    same groups for [filters] followed by further filters that compile, and
    an empty group for each of these. *)
Theorem split_more_filters (node : Node) (filters more : list Literal)
    (qs : list Predicate) (graphdef : GraphDef) (groups : list FlatState) :
  mapM to_predicate more = Ok qs →
  outcome (split flatten to_predicate node filters) = Ok (graphdef, groups) →
  outcome (split flatten to_predicate node (filters ++ more))
    = Ok (graphdef, groups ++ replicate (length more) ∅).
Proof.
  intros Hq Hout.
  destruct (split_Ok_compiled flatten _ _ _ _ Hout) as [ps Hc].
  rewrite (split_run flatten _ node filters ps Hc) in Hout.
  rewrite (split_run flatten _ node _ _ (mapM_app _ _ _ _ Hc Hq)).
  cbn [outcome] in *.
  destruct (first_unmatched ps (flatten node).2) as [[??]|] eqn:E; [done |].
  injection Hout as <- <-.
  assert (first_unmatched (ps ++ qs) (flatten node).2 = None) as ->.
  { rewrite first_unmatched_None in E. apply first_unmatched_None.
    intros path value Hin. destruct (E path value Hin) as (q & Hin' & Hq').
    exists q. split; [apply elem_of_app; by left | done]. }
  do 2 f_equal. unfold groups_of.
  rewrite length_app, replicate_add.
  rewrite foldl_assign_more by (by rewrite ?length_replicate).
  by rewrite (length_mapM _ _ _ Hq).
Qed.

(** X12: splitting a flat state made of two parts gives, group by group, the
    union of the groups of the parts, the pairs of the second part taking
    precedence at a path that both parts hold. *)
Theorem split_concat (node1 node2 node : Node) (filters : list Literal)
    (g1 g2 : GraphDef) (groups1 groups2 : list FlatState) :
  (flatten node).2 = (flatten node1).2 ++ (flatten node2).2 →
  outcome (split flatten to_predicate node1 filters) = Ok (g1, groups1) →
  outcome (split flatten to_predicate node2 filters) = Ok (g2, groups2) →
  outcome (split flatten to_predicate node filters)
    = Ok ((flatten node).1, zip_with (∪) groups2 groups1).
Proof.
  intros Hst H1 H2.
  destruct (split_Ok_compiled flatten _ _ _ _ H1) as [ps Hc].
  rewrite (split_run flatten _ node1 filters ps Hc) in H1.
  rewrite (split_run flatten _ node2 filters ps Hc) in H2.
  rewrite (split_run flatten _ node filters ps Hc). cbn [outcome] in *.
  destruct (first_unmatched ps (flatten node1).2) as [[??]|] eqn:E1; [done |].
  destruct (first_unmatched ps (flatten node2).2) as [[??]|] eqn:E2; [done |].
  injection H1 as _ <-. injection H2 as _ <-.
  assert (first_unmatched ps (flatten node).2 = None) as ->.
  { rewrite Hst. unfold first_unmatched in *.
    apply fmap_None. apply fmap_None in E1, E2. by apply list_find_app_None. }
  do 2 f_equal. rewrite Hst. unfold groups_of at 1. rewrite foldl_app.
  apply foldl_assign_union. by rewrite length_groups_of.
Qed.

(** X13: with a filter that every pair satisfies as the last one, [split]
    always returns: over a flat state with distinct paths, the groups of the
    filters before it are followed by one last group that holds exactly the
    pairs that none of their predicates matches. *)
Theorem split_catch_all_last (node : Node) (filters : list Literal)
    (predicates : list Predicate) (f : Literal) (q : Predicate) :
  mapM to_predicate filters = Ok predicates →
  to_predicate f = Ok q →
  (∀ path value, q path value = true) →
  NoDup (flatten node).2.*1 →
  ∃ (groups : list FlatState) (rest : FlatState),
    outcome (split flatten to_predicate node (filters ++ [f]))
      = Ok ((flatten node).1, groups ++ [rest]) ∧
    length groups = length filters ∧
    ∀ path value,
      rest !! path = Some value ↔
      (path, value) ∈ (flatten node).2 ∧
      ∀ p, p ∈ predicates → p path value = false.
Proof.
  intros Hc Hf Hq Hnd.
  assert (Hc' : mapM to_predicate (filters ++ [f]) = Ok (predicates ++ [q])).
  { apply mapM_app; [done |]. rewrite mapM_cons, Hf. done. }
  rewrite (split_run flatten _ node _ _ Hc'). cbn [outcome].
  assert (first_unmatched (predicates ++ [q]) (flatten node).2 = None) as ->.
  { apply first_unmatched_None. intros path value _. exists q.
    split; [apply elem_of_app; right; left | done]. }
  set (G := groups_of (predicates ++ [q]) (flatten node).2).
  assert (HG : length G = S (length predicates)).
  { unfold G. rewrite length_groups_of, length_app. cbn. lia. }
  destruct (lookup_lt_is_Some_2 G (length predicates)) as [rest Hrest]; [lia |].
  exists (take (length predicates) G), rest. split_and!.
  - do 2 f_equal. rewrite <- (take_drop_middle G _ _ Hrest) at 1.
    rewrite (drop_ge G) by lia. done.
  - pose proof (length_mapM _ _ _ Hc). rewrite length_take. lia.
  - intros path value. unfold G in Hrest.
    rewrite (groups_of_lookup _ _ _ _ Hnd Hrest), first_match_Some.
    apply and_iff_compat_l. split.
    + intros (q' & _ & _ & Hlt) p [j Hj]%list_elem_of_lookup.
      apply (Hlt j p); [by rewrite lookup_app_l by by eapply lookup_lt_Some |].
      by eapply lookup_lt_Some.
    + intros Hnone. exists q. split_and!; [by apply list_lookup_middle | done |].
      intros j p Hj Hlt. rewrite lookup_app_l in Hj by done.
      apply Hnone. by eapply list_elem_of_lookup_2.
Qed.

End split_compose.

(** ** Further properties of the predicate of a type *)

(** X14: the predicate of the guide is monotone in the class: a value that
    the form of [is_param] for a class [K] matches is matched by the form
    for every class that [K] is or derives from; so all that match
    [SpecialParam] match [Param]. *)
Theorem OfType_call_subkind (K K' : Class) (path : KeyPath) (value : Value) :
  SubKind K K' →
  OfType_call K path value = Ok true →
  OfType_call K' path value = Ok true.
Proof.
  intros Hsub. rewrite !OfType_call_Ok. intros [= H]. f_equal.
  apply OfType_true. apply OfType_true in H as [H | (t & Ht & H)].
  - left. by eapply SubKind_trans.
  - right. exists t. split; [done | by eapply SubKind_trans].
Qed.

(** ** The further properties at the objects of the guide *)


Lemma split_compile_stops_foo :
  split id filterlib.to_predicate foo
    ([LType Param] ++ LOther "42" :: [LType BatchStat]) =
  Run (EvCompile <$> ([LType Param] ++ [LOther "42"]))
      (Raise (TypeError_invalid_filter "42")).
Proof.
  apply (split_compile_stops id filterlib.to_predicate foo [LType Param]
           [LType BatchStat] (LOther "42") [filterlib.OfType Param]);
    reflexivity.
Defined.

Lemma split_succeeds_iff_foo :
  (∃ r, outcome (split id filterlib.to_predicate foo [LType Param; LType BatchStat])
        = Ok r) ↔
  (∀ path value, (path, value) ∈ foo.2 →
     ∃ q, q ∈ [filterlib.OfType Param; filterlib.OfType BatchStat] ∧
          q path value = true).
Proof.
  apply (split_succeeds_iff id filterlib.to_predicate foo
           [LType Param; LType BatchStat]).
  reflexivity.
Defined.

Lemma split_empty_state_unit :
  split id filterlib.to_predicate (tt, []) [LType Param; LType BatchStat] =
  Run [EvCompile (LType Param); EvCompile (LType BatchStat)] (Ok (tt, [∅; ∅])).
Proof.
  apply (split_empty_state id filterlib.to_predicate (tt, [])
           [LType Param; LType BatchStat]
           [filterlib.OfType Param; filterlib.OfType BatchStat]);
    reflexivity.
Defined.

Lemma split_group_count_foo :
  tt = (id foo).1 ∧
  length [ ({[ [inl "a"] := variable_state Param 0 ]} : FlatState);
           {[ [inl "b"] := variable_state BatchStat 1 ]} ] = 2.
Proof.
  apply (split_group_count id filterlib.to_predicate foo
           [LType Param; LType BatchStat]).
  vm_compute. reflexivity.
Defined.

Lemma split_group_content_bar :
  ({[ [inl "a"] := variable_state Param 0;
      [inl "b"] := variable_state SpecialParam 0 ]} : FlatState) !! [inl "b"]
    = Some (variable_state SpecialParam 0) ↔
  ([inl "b"], variable_state SpecialParam 0) ∈ bar.2 ∧
  ∃ q, [filterlib.OfType Param; filterlib.OfType SpecialParam] !! 0 = Some q ∧
       q [inl "b"] (variable_state SpecialParam 0) = true ∧
       ∀ j q', [filterlib.OfType Param; filterlib.OfType SpecialParam] !! j = Some q' →
               j < 0 → q' [inl "b"] (variable_state SpecialParam 0) = false.
Proof.
  apply (split_group_content id filterlib.to_predicate bar
           [LType Param; LType SpecialParam]
           [filterlib.OfType Param; filterlib.OfType SpecialParam] tt
           [ {[ [inl "a"] := variable_state Param 0;
                [inl "b"] := variable_state SpecialParam 0 ]}; ∅ ]).
  - reflexivity.
  - exact NoDup_bar.
  - vm_compute. reflexivity.
  - reflexivity.
Defined.

Lemma split_traversal_order_bar :
  outcome (split id filterlib.to_predicate
             (tt, [ ([inl "b"], variable_state SpecialParam 0);
                    ([inl "a"], variable_state Param 0) ])
             [LType Param; LType SpecialParam])
  = Ok (tt, [ {[ [inl "a"] := variable_state Param 0;
                 [inl "b"] := variable_state SpecialParam 0 ]}; ∅ ]).
Proof.
  apply (split_traversal_order id filterlib.to_predicate bar
           (tt, [ ([inl "b"], variable_state SpecialParam 0);
                  ([inl "a"], variable_state Param 0) ])
           [LType Param; LType SpecialParam] tt).
  - exact NoDup_bar.
  - apply perm_swap.
  - vm_compute. reflexivity.
Defined.

Lemma split_absorbed_bar :
  [ ({[ [inl "a"] := variable_state Param 0;
        [inl "b"] := variable_state SpecialParam 0 ]} : FlatState); ∅ ] !! 1
  = Some ∅.
Proof.
  apply (split_absorbed id filterlib.to_predicate bar
           [LType Param; LType SpecialParam]
           [filterlib.OfType Param; filterlib.OfType SpecialParam] tt
           _ 0 1 (filterlib.OfType Param) (filterlib.OfType SpecialParam)).
  - reflexivity.
  - reflexivity.
  - reflexivity.
  - lia.
  - intros path value Hin _. cbn in Hin.
    apply elem_of_cons in Hin as [Hin | Hin].
    + injection Hin as -> ->. reflexivity.
    + apply list_elem_of_singleton in Hin. injection Hin as -> ->. reflexivity.
  - vm_compute. reflexivity.
Defined.

Lemma split_more_filters_foo :
  outcome (split id filterlib.to_predicate foo
             ([LType Param; LType BatchStat] ++ [LStr "dropout"]))
  = Ok (tt, [ {[ [inl "a"] := variable_state Param 0 ]};
              {[ [inl "b"] := variable_state BatchStat 1 ]} ]
            ++ replicate (length [LStr "dropout"]) ∅).
Proof.
  apply (split_more_filters id filterlib.to_predicate foo
           [LType Param; LType BatchStat] [LStr "dropout"]
           [filterlib.WithTag "dropout"]).
  - reflexivity.
  - vm_compute. reflexivity.
Defined.

Lemma split_concat_foo :
  outcome (split id filterlib.to_predicate foo [LType Param; LType BatchStat])
  = Ok ((id foo).1,
        zip_with (∪) [ ∅; {[ [inl "b"] := variable_state BatchStat 1 ]} ]
                     [ {[ [inl "a"] := variable_state Param 0 ]}; ∅ ]).
Proof.
  apply (split_concat id filterlib.to_predicate
           (tt, [ ([inl "a"], variable_state Param 0) ])
           (tt, [ ([inl "b"], variable_state BatchStat 1) ])
           foo [LType Param; LType BatchStat] tt tt).
  - reflexivity.
  - vm_compute. reflexivity.
  - vm_compute. reflexivity.
Defined.

Lemma split_catch_all_last_foo :
  ∃ (groups : list FlatState) (rest : FlatState),
    outcome (split id filterlib.to_predicate foo ([LType Param] ++ [LEllipsis]))
      = Ok ((id foo).1, groups ++ [rest]) ∧
    length groups = length [LType Param] ∧
    ∀ path value,
      rest !! path = Some value ↔
      (path, value) ∈ (id foo).2 ∧
      ∀ p, p ∈ [filterlib.OfType Param] → p path value = false.
Proof.
  apply (split_catch_all_last id filterlib.to_predicate foo [LType Param]
           [filterlib.OfType Param] LEllipsis filterlib.Everything).
  - reflexivity.
  - reflexivity.
  - reflexivity.
  - exact NoDup_foo.
Defined.

Lemma OfType_call_subkind_SpecialParam :
  is_param [inl "b"] (variable_state SpecialParam 0) = Ok true.
Proof.
  apply (OfType_call_subkind SpecialParam Param).
  - apply issubclass_SubKind. reflexivity.
  - reflexivity.
Defined.
